(** * CompileTimeFSM: the template-based finite state machine of FSM.hpp

    FSM.hpp encodes states and events as C++ types, transitions as
    specialisations of [FSM_Transition], diagnostic names as specialisations
    of [FSM_State_Name] and lifecycle hooks as specialisations of
    [FSM_On_Enter], [FSM_On_Exit] and [FSM_On_Tick].  A translation unit is a
    sequence of uses of the [NEW_*] macros; the compiler turns it into a set
    of specialisations against which [FSM<State>::dispatch<Event>] is
    instantiated.

    The embedding keeps that structure.  A C++ type is its identifier, a
    translation unit is a list of macro uses, the compiler's table of
    specialisations is a record of finite maps, and an instantiation either
    succeeds with a value and the calls it performs, or is ill-formed. *)

From stdpp Require Import base strings gmap list.

(** ** C++ types, by identifier *)

Abbreviation ty := string (only parsing).

(** The three marker classes of FSM.hpp. [FSM_CriticalEvent] derives from
    [FSM_Event]. *)
Inductive base : Type :=
| FSM_State
| FSM_Event
| FSM_CriticalEvent.

#[global] Instance base_eq_dec : EqDecision base.
Proof. solve_decision. Defined.

(** [std::is_base_of_v<b, D>] for a struct [D] whose direct base is [d]. *)
Definition is_base_of (b d : base) : bool :=
  match b, d with
  | FSM_State, FSM_State => true
  | FSM_Event, FSM_Event => true
  | FSM_Event, FSM_CriticalEvent => true
  | FSM_CriticalEvent, FSM_CriticalEvent => true
  | _, _ => false
  end.

(** The body of a hook.  The hooks of the example stream one line to
    [std::cout]; a body is kept as the text it streams. *)
Abbreviation code := string (only parsing).

Definition endl : string := String (Ascii.ascii_of_nat 10) EmptyString.

(** ** Translation units: the macro DSL *)

Inductive decl : Type :=
| NEW_STATE (state : string)
| NEW_EVENT (event : string)
| NEW_CRITICAL_EVENT (event : string)
| NEW_TRANSITION (currentState event nextState : ty)
| NEW_GENERIC_TRANSITION (event nextState : ty)
| NEW_ON_ENTER_ACTION (state : ty) (body : code)
| NEW_ON_EXIT_ACTION (state : ty) (body : code)
| NEW_ON_TICK_ACTION (state : ty) (body : code).

#[global] Instance decl_eq_dec : EqDecision decl.
Proof. solve_decision. Defined.

(** ** Ill-formed programs *)

Inductive compile_error : Type :=
| redefinition (what : string) (T : ty)
| constraints_not_satisfied (concept : string) (T : ty)
| static_assertion_failed (concept : string) (T : ty)
| incomplete_type (template : string) (T : ty).

Inductive result (A : Type) : Type :=
| Ok (a : A)
| Ill_formed (e : compile_error).

Arguments Ok {A} a.
Arguments Ill_formed {A} e.

#[global] Instance result_ret : MRet result := @Ok.
#[global] Instance result_bind : MBind result := λ A B f m,
  match m with
  | Ok a => f a
  | Ill_formed e => Ill_formed e
  end.

(** ** The specialisations known to the compiler *)

Record registry : Type := Registry {
  (** every struct defined so far, with its direct base *)
  structs : gmap ty base;
  (** explicit specialisations of [FSM_State_Name] *)
  State_Name : gmap ty string;
  (** explicit specialisations [FSM_Transition<currentState, event>] *)
  Transition_explicit : gmap (ty * ty) ty;
  (** partial specialisations [FSM_Transition<State, event>], by event *)
  Transition_partial : gmap ty ty;
  (** explicit specialisations of the three hook templates *)
  On_Enter : gmap ty code;
  On_Exit : gmap ty code;
  On_Tick : gmap ty code
}.

Definition no_declarations : registry :=
  Registry ∅ ∅ ∅ ∅ ∅ ∅ ∅.

(** *** The concepts *)

Definition derived_from (b : base) (r : registry) (T : ty) : bool :=
  match structs r !! T with
  | Some d => is_base_of b d
  | None => false
  end.

Definition derived_FSM_State : registry → ty → bool := derived_from FSM_State.
Definition derived_FSM_Event : registry → ty → bool := derived_from FSM_Event.
Definition derived_FSM_CriticalEvent : registry → ty → bool :=
  derived_from FSM_CriticalEvent.

(** *** Elaboration of one macro use *)

Definition define_struct (T : ty) (b : base) (r : registry) : result registry :=
  match structs r !! T with
  | Some _ => Ill_formed (redefinition "struct" T)
  | None =>
      Ok (Registry (<[T := b]> (structs r)) (State_Name r)
            (Transition_explicit r) (Transition_partial r)
            (On_Enter r) (On_Exit r) (On_Tick r))
  end.

Definition specialize_State_Name (T : ty) (name : string) (r : registry)
  : result registry :=
  match State_Name r !! T with
  | Some _ => Ill_formed (redefinition "FSM_State_Name" T)
  | None =>
      Ok (Registry (structs r) (<[T := name]> (State_Name r))
            (Transition_explicit r) (Transition_partial r)
            (On_Enter r) (On_Exit r) (On_Tick r))
  end.

Definition require (concept : string) (holds : registry → ty → bool)
    (r : registry) (T : ty) : result unit :=
  if holds r T then Ok () else Ill_formed (constraints_not_satisfied concept T).

Definition static_assert (concept : string) (holds : registry → ty → bool)
    (r : registry) (T : ty) : result unit :=
  if holds r T then Ok () else Ill_formed (static_assertion_failed concept T).

Definition specialize_hook (template : string) (state : ty)
    (table : gmap ty code) (body : code) : result (gmap ty code) :=
  match table !! state with
  | Some _ => Ill_formed (redefinition template state)
  | None => Ok (<[state := body]> table)
  end.

Definition declare (d : decl) (r : registry) : result registry :=
  match d with
  | NEW_STATE state =>
      r ← define_struct ("s_" +:+ state) FSM_State r;
      specialize_State_Name ("s_" +:+ state) ("s_" +:+ state) r
  | NEW_EVENT event =>
      r ← define_struct ("e_" +:+ event) FSM_Event r;
      specialize_State_Name ("e_" +:+ event) ("e_" +:+ event) r
  | NEW_CRITICAL_EVENT event =>
      define_struct ("ce_" +:+ event) FSM_CriticalEvent r
  | NEW_TRANSITION currentState event nextState =>
      _ ← require "derived_FSM_State" derived_FSM_State r currentState;
      _ ← require "derived_FSM_Event" derived_FSM_Event r event;
      _ ← static_assert "derived_FSM_State" derived_FSM_State r nextState;
      match Transition_explicit r !! (currentState, event) with
      | Some _ => Ill_formed (redefinition "FSM_Transition" currentState)
      | None =>
          Ok (Registry (structs r) (State_Name r)
                (<[(currentState, event) := nextState]> (Transition_explicit r))
                (Transition_partial r)
                (On_Enter r) (On_Exit r) (On_Tick r))
      end
  | NEW_GENERIC_TRANSITION event nextState =>
      _ ← require "derived_FSM_Event" derived_FSM_Event r event;
      _ ← static_assert "derived_FSM_State" derived_FSM_State r nextState;
      match Transition_partial r !! event with
      | Some _ => Ill_formed (redefinition "FSM_Transition" event)
      | None =>
          Ok (Registry (structs r) (State_Name r)
                (Transition_explicit r)
                (<[event := nextState]> (Transition_partial r))
                (On_Enter r) (On_Exit r) (On_Tick r))
      end
  | NEW_ON_ENTER_ACTION state body =>
      _ ← require "derived_FSM_State" derived_FSM_State r state;
      t ← specialize_hook "FSM_On_Enter" state (On_Enter r) body;
      Ok (Registry (structs r) (State_Name r) (Transition_explicit r)
            (Transition_partial r) t (On_Exit r) (On_Tick r))
  | NEW_ON_EXIT_ACTION state body =>
      _ ← require "derived_FSM_State" derived_FSM_State r state;
      t ← specialize_hook "FSM_On_Exit" state (On_Exit r) body;
      Ok (Registry (structs r) (State_Name r) (Transition_explicit r)
            (Transition_partial r) (On_Enter r) t (On_Tick r))
  | NEW_ON_TICK_ACTION state body =>
      _ ← require "derived_FSM_State" derived_FSM_State r state;
      t ← specialize_hook "FSM_On_Tick" state (On_Tick r) body;
      Ok (Registry (structs r) (State_Name r) (Transition_explicit r)
            (Transition_partial r) (On_Enter r) (On_Exit r) t)
  end.

Fixpoint translate (tu : list decl) (r : registry) : result registry :=
  match tu with
  | [] => Ok r
  | d :: tu => r ← declare d r; translate tu r
  end.

Definition compile (tu : list decl) : result registry :=
  translate tu no_declarations.

(** ** Template lookup *)

(** [FSM_Transition<CurrentState, Event>::next_state].  The primary template
    is constrained and never defined; an explicit specialisation is chosen
    before a partial one. *)
Definition FSM_Transition (r : registry) (CurrentState Event : ty) : option ty :=
  if derived_FSM_State r CurrentState && derived_FSM_Event r Event then
    match Transition_explicit r !! (CurrentState, Event) with
    | Some nextState => Some nextState
    | None => Transition_partial r !! Event
    end
  else None.

Definition can_handle_event (r : registry) (State Event : ty) : bool :=
  bool_decide (is_Some (FSM_Transition r State Event)).

(** [FSM_State_Name<T>::name]; the primary template is never defined. *)
Definition FSM_State_Name (r : registry) (T : ty) : result string :=
  match State_Name r !! T with
  | Some name => Ok name
  | None => Ill_formed (incomplete_type "FSM_State_Name" T)
  end.

(** ** Run-time behaviour *)

(** What a call does that the outside can see: a call of one of the hooks'
    [exec], or text streamed to [std::cout] by the framework itself. *)
Inductive effect : Type :=
| exec_On_Enter (State : ty)
| exec_On_Exit (State : ty)
| exec_On_Tick (State : ty)
| cout (text : string).

#[global] Instance effect_eq_dec : EqDecision effect.
Proof. solve_decision. Defined.

(** [FSM<State>] has no data member: the object is its template argument. *)
Record FSM : Type := FSM_in { state : ty }.

#[global] Instance FSM_eq_dec : EqDecision FSM.
Proof. solve_decision. Defined.

(** *** Calls

    A call either is ill-formed, so that the program does not exist, or
    returns a value after a sequence of observable effects.  Sequencing two
    calls appends their effects. *)
Definition traced (A : Type) : Type := result (A * list effect).

#[global] Instance traced_ret : MRet traced := λ A a, Ok (a, []).
#[global] Instance traced_bind : MBind traced := λ A B f m,
  match m with
  | Ok (a, out) =>
      match f a with
      | Ok (b, out') => Ok (b, out ++ out')
      | Ill_formed e => Ill_formed e
      end
  | Ill_formed e => Ill_formed e
  end.

(** One observable effect. *)
Definition perform (e : effect) : traced unit := Ok ((), [e]).

(** A step the compiler takes while instantiating the call: it has no
    effect at run time, and the call is ill-formed when it fails. *)
Definition instantiate {A} (c : result A) : traced A :=
  match c with
  | Ok a => Ok (a, [])
  | Ill_formed e => Ill_formed e
  end.

(** [typename FSM_Transition<State, Event>::next_state] *)
Definition next_state (r : registry) (State Event : ty) : result ty :=
  match FSM_Transition r State Event with
  | Some nextState => Ok nextState
  | None => Ill_formed (incomplete_type "FSM_Transition" State)
  end.

(** [FSM_Debug_Printer<State, Event>::print_unhandled_event()] *)
Definition print_unhandled_event (r : registry) (State Event : ty)
  : traced unit :=
  event_name ← instantiate (FSM_State_Name r Event);
  state_name ← instantiate (FSM_State_Name r State);
  perform (cout ("[FSM DEBUG]: Unhandled event <" +:+ event_name
                   +:+ "> in state <" +:+ state_name +:+ ">" +:+ endl)).

(** [FSM<State>::FSM()] *)
Definition FSM_ctor (r : registry) (State : ty) : traced FSM :=
  _ ← instantiate (require "derived_FSM_State" derived_FSM_State r State);
  _ ← perform (exec_On_Enter State);
  mret (FSM_in State).

(** [FSM<State>::dispatch<Event>(const Event&)].  [return *this] copies the
    object with the implicit copy constructor, which calls no hook;
    [return FSM<NextState>{}] runs the constructor above. *)
Definition dispatch (r : registry) (this : FSM) (Event : ty) : traced FSM :=
  _ ← instantiate (require "derived_FSM_Event" derived_FSM_Event r Event);
  if negb (can_handle_event r (state this) Event) then
    _ ← print_unhandled_event r (state this) Event;
    mret this
  else
    _ ← (if negb (derived_FSM_CriticalEvent r Event)
         then perform (exec_On_Exit (state this))
         else mret ());
    NextState ← instantiate (next_state r (state this) Event);
    FSM_ctor r NextState.

(** A caller rebinding one FSM value over a sequence of events, as the loop
    of the example's [main] does. *)
Fixpoint run (r : registry) (fsm : FSM) (events : list ty) : traced FSM :=
  match events with
  | [] => mret fsm
  | Event :: events =>
      fsm ← dispatch r fsm Event;
      run r fsm events
  end.

(** *** What reaches the console

    The body of a hook template that was never specialised is empty. *)
Definition hook_body (table : gmap ty code) (State : ty) : code :=
  default "" (table !! State).

Definition streamed (r : registry) (e : effect) : string :=
  match e with
  | exec_On_Enter State => hook_body (On_Enter r) State
  | exec_On_Exit State => hook_body (On_Exit r) State
  | exec_On_Tick State => hook_body (On_Tick r) State
  | cout text => text
  end.

Definition console (r : registry) (out : list effect) : list string :=
  filter (λ text, text ≠ "") (streamed r <$> out).

(** The effects of a call; an ill-formed call is never executed. *)
Definition effects {A} (c : traced A) : list effect :=
  match c with
  | Ok (_, out) => out
  | Ill_formed _ => []
  end.

Definition is_hook (e : effect) : bool :=
  match e with
  | cout _ => false
  | _ => true
  end.

Definition is_tick (e : effect) : bool :=
  match e with
  | exec_On_Tick _ => true
  | _ => false
  end.

(** No call of a tick hook among the effects. *)
Definition no_tick (out : list effect) : Prop :=
  Forall (λ e, is_tick e = false) out.

(** ** The example: example/basic_fsm.hpp *)

Definition basic_fsm : list decl :=
  [ NEW_STATE "init"; NEW_STATE "idle"; NEW_STATE "tx"; NEW_STATE "rx";
    NEW_STATE "error";
    NEW_EVENT "ready"; NEW_EVENT "startTx"; NEW_EVENT "startRx";
    NEW_EVENT "done";
    NEW_CRITICAL_EVENT "error"; NEW_CRITICAL_EVENT "reset";
    NEW_TRANSITION "s_init" "e_ready" "s_idle";
    NEW_TRANSITION "s_idle" "e_startTx" "s_tx";
    NEW_TRANSITION "s_idle" "e_startRx" "s_rx";
    NEW_TRANSITION "s_tx" "e_done" "s_idle";
    NEW_TRANSITION "s_rx" "e_done" "s_idle";
    NEW_GENERIC_TRANSITION "ce_error" "s_error";
    NEW_GENERIC_TRANSITION "ce_reset" "s_init";
    NEW_ON_ENTER_ACTION "s_init" ("Entering init state" +:+ endl);
    NEW_ON_EXIT_ACTION "s_init" ("Exiting init state" +:+ endl);
    NEW_ON_ENTER_ACTION "s_idle" ("Entering idle state" +:+ endl);
    NEW_ON_EXIT_ACTION "s_idle" ("Exiting idle state" +:+ endl);
    NEW_ON_ENTER_ACTION "s_tx" ("Entering tx state" +:+ endl);
    NEW_ON_EXIT_ACTION "s_tx" ("Exiting tx state" +:+ endl);
    NEW_ON_ENTER_ACTION "s_rx" ("Entering rx state" +:+ endl);
    NEW_ON_EXIT_ACTION "s_rx" ("Exiting rx state" +:+ endl);
    NEW_ON_ENTER_ACTION "s_error" ("Entering error state" +:+ endl);
    NEW_ON_EXIT_ACTION "s_error" ("Exiting error state" +:+ endl) ].

(** The registry of a translation unit that compiles. *)
Definition registry_of (tu : list decl) : registry :=
  match compile tu with
  | Ok r => r
  | Ill_formed _ => no_declarations
  end.

Definition basic_registry : registry := registry_of basic_fsm.

(** A machine whose critical event has an exact rule from one state and no
    generic rule: [ce_halt] is unhandled in [s_init]. *)
Definition halt_fsm : list decl :=
  [ NEW_STATE "init"; NEW_STATE "idle";
    NEW_CRITICAL_EVENT "halt";
    NEW_TRANSITION "s_idle" "ce_halt" "s_init" ].

Definition halt_registry : registry := registry_of halt_fsm.

(** A machine in which one event has both an exact rule from [s_init] and
    a generic rule. *)
Definition override_fsm : list decl :=
  [ NEW_STATE "init"; NEW_STATE "idle"; NEW_STATE "error";
    NEW_EVENT "fail";
    NEW_TRANSITION "s_init" "e_fail" "s_idle";
    NEW_GENERIC_TRANSITION "e_fail" "s_error" ].

Definition override_registry : registry := registry_of override_fsm.

(** * Relations between registries *)

(** Later declarations only add specialisations. *)
Record extends (r r' : registry) : Prop := Extends {
  extends_structs : structs r ⊆ structs r';
  extends_State_Name : State_Name r ⊆ State_Name r';
  extends_explicit : Transition_explicit r ⊆ Transition_explicit r';
  extends_partial : Transition_partial r ⊆ Transition_partial r';
  extends_On_Enter : On_Enter r ⊆ On_Enter r';
  extends_On_Exit : On_Exit r ⊆ On_Exit r';
  extends_On_Tick : On_Tick r ⊆ On_Tick r'
}.

(** What a translation unit that compiles guarantees. *)
Record well_formed (r : registry) : Prop := Well_formed {
  (** only [NEW_STATE] and [NEW_EVENT] specialise [FSM_State_Name], with the
      identifier of the struct they define *)
  named_struct T name :
    State_Name r !! T = Some name →
    name = T ∧ ∃ b, structs r !! T = Some b ∧ b ≠ FSM_CriticalEvent;
  struct_named T b :
    structs r !! T = Some b → b ≠ FSM_CriticalEvent →
    State_Name r !! T = Some T;
  (** constraints of the primary template and the [static_assert] *)
  explicit_checked S E T :
    Transition_explicit r !! (S, E) = Some T →
    derived_FSM_State r S = true ∧ derived_FSM_Event r E = true ∧
    derived_FSM_State r T = true;
  partial_checked E T :
    Transition_partial r !! E = Some T →
    derived_FSM_Event r E = true ∧ derived_FSM_State r T = true
}.

(** The specialisations a macro use leaves in the registry. *)
Definition registered (d : decl) (r : registry) : Prop :=
  match d with
  | NEW_STATE state =>
      structs r !! ("s_" +:+ state) = Some FSM_State ∧
      State_Name r !! ("s_" +:+ state) = Some ("s_" +:+ state)
  | NEW_EVENT event =>
      structs r !! ("e_" +:+ event) = Some FSM_Event ∧
      State_Name r !! ("e_" +:+ event) = Some ("e_" +:+ event)
  | NEW_CRITICAL_EVENT event =>
      structs r !! ("ce_" +:+ event) = Some FSM_CriticalEvent
  | NEW_TRANSITION currentState event nextState =>
      Transition_explicit r !! (currentState, event) = Some nextState
  | NEW_GENERIC_TRANSITION event nextState =>
      Transition_partial r !! event = Some nextState
  | NEW_ON_ENTER_ACTION state body => On_Enter r !! state = Some body
  | NEW_ON_EXIT_ACTION state body => On_Exit r !! state = Some body
  | NEW_ON_TICK_ACTION state body => On_Tick r !! state = Some body
  end.

(** * The one-definition rule, and the example's [main] *)

(** What a macro use defines: a struct, or one specialisation of a
    template.  ([NEW_STATE] and [NEW_EVENT] also specialise
    [FSM_State_Name] for the struct they define.) *)
Inductive entity : Type :=
| the_struct (T : ty)
| the_FSM_Transition (currentState event : ty)
| the_generic_FSM_Transition (event : ty)
| the_FSM_On_Enter (state : ty)
| the_FSM_On_Exit (state : ty)
| the_FSM_On_Tick (state : ty).

Definition defines (d : decl) : entity :=
  match d with
  | NEW_STATE state => the_struct ("s_" +:+ state)
  | NEW_EVENT event => the_struct ("e_" +:+ event)
  | NEW_CRITICAL_EVENT event => the_struct ("ce_" +:+ event)
  | NEW_TRANSITION currentState event _ => the_FSM_Transition currentState event
  | NEW_GENERIC_TRANSITION event _ => the_generic_FSM_Transition event
  | NEW_ON_ENTER_ACTION state _ => the_FSM_On_Enter state
  | NEW_ON_EXIT_ACTION state _ => the_FSM_On_Exit state
  | NEW_ON_TICK_ACTION state _ => the_FSM_On_Tick state
  end.

Definition defined (r : registry) (x : entity) : Prop :=
  match x with
  | the_struct T => is_Some (structs r !! T)
  | the_FSM_Transition currentState event =>
      is_Some (Transition_explicit r !! (currentState, event))
  | the_generic_FSM_Transition event => is_Some (Transition_partial r !! event)
  | the_FSM_On_Enter state => is_Some (On_Enter r !! state)
  | the_FSM_On_Exit state => is_Some (On_Exit r !! state)
  | the_FSM_On_Tick state => is_Some (On_Tick r !! state)
  end.



(** A call whose instantiation succeeds. *)
Definition instantiates {A} (c : traced A) : Prop := ∃ v, c = Ok v.

(** ** The example's [main]

    [basicFSM] is a [std::variant] over [FSM<s_init>], ..., [FSM<s_error>]:
    a value of it is an FSM in one of these states. *)
Definition basicFSM : list ty :=
  ["s_init"; "s_idle"; "s_tx"; "s_rx"; "s_error"].

(** The conversion of an [FSM<State>] to [basicFSM], which exists for the
    alternatives only. *)
Definition to_basicFSM (fsm : FSM) : result FSM :=
  if decide (state fsm ∈ basicFSM) then Ok fsm
  else Ill_formed (constraints_not_satisfied "basicFSM alternative" (state fsm)).

(** The events the visitor of [processInputEvent] dispatches, by case label. *)
Definition input_events : list ty :=
  ["e_ready"; "e_startTx"; "e_startRx"; "e_done"; "ce_error"; "ce_reset"].

(** The generic lambda of [processInputEvent], at run time. *)
Definition visitor (r : registry) (state : FSM) (inputEvent : Z) : traced FSM :=
  match inputEvent with
  | 0 => fsm ← dispatch r state "e_ready"; instantiate (to_basicFSM fsm)
  | 1 => fsm ← dispatch r state "e_startTx"; instantiate (to_basicFSM fsm)
  | 2 => fsm ← dispatch r state "e_startRx"; instantiate (to_basicFSM fsm)
  | 3 => fsm ← dispatch r state "e_done"; instantiate (to_basicFSM fsm)
  | 4 => fsm ← dispatch r state "ce_error"; instantiate (to_basicFSM fsm)
  | 5 => fsm ← dispatch r state "ce_reset"; instantiate (to_basicFSM fsm)
  | _ =>
      _ ← perform (cout ("Invalid event" +:+ endl));
      instantiate (to_basicFSM state)
  end%Z.

(** [std::visit] instantiates the lambda for every alternative, and each
    instantiation contains all six [dispatch] calls, whatever the input at
    run time: every one of them has to be well-formed and to return an
    alternative. *)
Definition instantiate_return (r : registry) (State Event : ty) : result unit :=
  match dispatch r (FSM_in State) Event with
  | Ok (next, _) => _ ← to_basicFSM next; Ok ()
  | Ill_formed e => Ill_formed e
  end.

Definition instantiate_visitor (r : registry) (State : ty) : result unit :=
  _ ← require "derived_FSM_State" derived_FSM_State r State;
  foldr (λ Event rest, _ ← instantiate_return r State Event; rest)
    (Ok ()) input_events.

Definition instantiate_visit (r : registry) : result unit :=
  foldr (λ State rest, _ ← instantiate_visitor r State; rest) (Ok ()) basicFSM.

(** [processInputEvent(fsm, inputEvent)] *)
Definition processInputEvent (r : registry) (fsm : FSM) (inputEvent : Z)
  : traced FSM :=
  _ ← instantiate (instantiate_visit r);
  visitor r fsm inputEvent.

Definition prompt : string :=
  "Enter event (0: ready, 1: startTx, 2: startRx, 3: done, 4: error, 5: reset): ".

(** The loop of [main] over the integers [std::cin] yields; [main] itself
    never returns, so a run is observed on a finite prefix of its input. *)
Fixpoint main_loop (r : registry) (fsm : FSM) (inputs : list Z) : traced FSM :=
  match inputs with
  | [] => mret fsm
  | inputEvent :: inputs =>
      _ ← perform (cout prompt);
      fsm ← processInputEvent r fsm inputEvent;
      main_loop r fsm inputs
  end.

Definition main (r : registry) (inputs : list Z) : traced FSM :=
  fsm ← FSM_ctor r "s_init";
  fsm ← instantiate (to_basicFSM fsm);
  main_loop r fsm inputs.

(** * Properties of elaboration *)

Lemma bind_Ok {A B} (m : result A) (f : A → result B) (b : B) :
  m ≫= f = Ok b ↔ ∃ a, m = Ok a ∧ f a = Ok b.
Proof.
  destruct m as [a|e]; simpl; split.
  - intros Hf. by exists a.
  - by intros (a' & [= <-] & Hf).
  - done.
  - by intros (a' & [=] & _).
Qed.

Lemma require_Ok concept holds r T u :
  require concept holds r T = Ok u ↔ holds r T = true.
Proof. unfold require. destruct u, (holds r T); naive_solver. Qed.

Lemma static_assert_Ok concept holds r T u :
  static_assert concept holds r T = Ok u ↔ holds r T = true.
Proof. unfold static_assert. destruct u, (holds r T); naive_solver. Qed.

Lemma specialize_hook_Ok template state table body t :
  specialize_hook template state table body = Ok t →
  table !! state = None ∧ t = <[state := body]> table.
Proof. unfold specialize_hook. destruct (table !! state); naive_solver. Qed.

Lemma define_struct_Ok T b r r' :
  define_struct T b r = Ok r' →
  structs r !! T = None ∧
  r' = Registry (<[T := b]> (structs r)) (State_Name r)
         (Transition_explicit r) (Transition_partial r)
         (On_Enter r) (On_Exit r) (On_Tick r).
Proof. unfold define_struct. destruct (structs r !! T); naive_solver. Qed.

Lemma specialize_State_Name_Ok T name r r' :
  specialize_State_Name T name r = Ok r' →
  State_Name r !! T = None ∧
  r' = Registry (structs r) (<[T := name]> (State_Name r))
         (Transition_explicit r) (Transition_partial r)
         (On_Enter r) (On_Exit r) (On_Tick r).
Proof. unfold specialize_State_Name. destruct (State_Name r !! T); naive_solver. Qed.

(** Breaks a successful elaboration step into the facts it established. *)
Ltac elaborated H :=
  repeat match type of H with
  | _ ≫= _ = Ok _ =>
      let H1 := fresh "Hstep" in
      apply bind_Ok in H as (? & H1 & H);
      first [ apply require_Ok in H1
            | apply static_assert_Ok in H1
            | apply specialize_hook_Ok in H1 as [? ->]
            | apply define_struct_Ok in H1 as [? ->]
            | idtac ]
  | specialize_State_Name _ _ _ = Ok _ =>
      apply specialize_State_Name_Ok in H as [? ->]
  | define_struct _ _ _ = Ok _ =>
      apply define_struct_Ok in H as [? ->]
  | match ?o with Some _ => Ill_formed _ | None => Ok _ end = Ok _ =>
      let E := fresh "Hfree" in
      destruct o eqn:E; [discriminate H|injection H as <-]
  | Ok _ = Ok _ => injection H as <-
  end.

(** ** Later declarations only add specialisations *)

#[global] Instance extends_preorder : PreOrder extends.
Proof.
  split.
  - intros r. by split.
  - intros r1 r2 r3 [] []. split; by etrans.
Qed.

Lemma declare_extends d r r' : declare d r = Ok r' → extends r r'.
Proof.
  intros H. destruct d; simpl in H; elaborated H;
    split; simpl; try done; try by apply insert_subseteq.
  all: etrans; [|apply insert_subseteq]; done.
Qed.

Lemma translate_extends tu r r' : translate tu r = Ok r' → extends r r'.
Proof.
  revert r. induction tu as [|d tu IH]; intros r H; simpl in H.
  - by injection H as <-.
  - apply bind_Ok in H as (r1 & Hd & Htu).
    etrans; [by eapply declare_extends|by apply IH].
Qed.

(** ** What a translation unit that compiles guarantees *)

Lemma no_declarations_well_formed : well_formed no_declarations.
Proof. split; simpl; intros *; by rewrite lookup_empty. Qed.

Lemma derived_from_insert b r T d T' :
  structs r !! T = None →
  derived_from b r T' = true →
  derived_from b
    (Registry (<[T := d]> (structs r)) (State_Name r) (Transition_explicit r)
       (Transition_partial r) (On_Enter r) (On_Exit r) (On_Tick r)) T' = true.
Proof.
  intros Hfree. unfold derived_from; simpl.
  destruct (decide (T = T')) as [->|Hne].
  - by rewrite Hfree.
  - by rewrite lookup_insert_ne.
Qed.

Lemma define_struct_well_formed_named T b r :
  b ≠ FSM_CriticalEvent →
  structs r !! T = None → State_Name r !! T = None →
  well_formed r →
  well_formed
    (Registry (<[T := b]> (structs r)) (<[T := T]> (State_Name r))
       (Transition_explicit r) (Transition_partial r)
       (On_Enter r) (On_Exit r) (On_Tick r)).
Proof.
  intros Hb Hfree Hname [Hn Hs He Hp]. split; simpl.
  - intros T' name. rewrite !lookup_insert. case_decide as HT.
    + intros [= <-]. subst T'. eauto.
    + apply Hn.
  - intros T' b'. rewrite !lookup_insert. case_decide as HT; [by subst|apply Hs].
  - intros S E T' HT. destruct (He _ _ _ HT) as (? & ? & ?).
    unfold derived_FSM_State, derived_FSM_Event.
    split_and!; by apply derived_from_insert.
  - intros E T' HT. destruct (Hp _ _ HT) as (? & ?).
    unfold derived_FSM_State, derived_FSM_Event.
    split_and!; by apply derived_from_insert.
Qed.

Lemma define_struct_well_formed_critical T r :
  structs r !! T = None →
  well_formed r →
  well_formed
    (Registry (<[T := FSM_CriticalEvent]> (structs r)) (State_Name r)
       (Transition_explicit r) (Transition_partial r)
       (On_Enter r) (On_Exit r) (On_Tick r)).
Proof.
  intros Hfree [Hn Hs He Hp]. split; simpl.
  - intros T' name HT'. destruct (Hn _ _ HT') as (-> & b & Hb & ?).
    split; [done|]. exists b. rewrite lookup_insert_ne; [done|congruence].
  - intros T' b'. rewrite lookup_insert. case_decide as HT.
    + by intros [= <-].
    + apply Hs.
  - intros S E T' HT. destruct (He _ _ _ HT) as (? & ? & ?).
    unfold derived_FSM_State, derived_FSM_Event.
    split_and!; by apply derived_from_insert.
  - intros E T' HT. destruct (Hp _ _ HT) as (? & ?).
    unfold derived_FSM_State, derived_FSM_Event.
    split_and!; by apply derived_from_insert.
Qed.

Lemma declare_well_formed d r r' :
  declare d r = Ok r' → well_formed r → well_formed r'.
Proof.
  intros H Hwf. destruct d; simpl in H; elaborated H; simpl in *.
  - (* NEW_STATE *) by apply define_struct_well_formed_named.
  - (* NEW_EVENT *) by apply define_struct_well_formed_named.
  - (* NEW_CRITICAL_EVENT *) by apply define_struct_well_formed_critical.
  - (* NEW_TRANSITION *)
    destruct Hwf as [Hn Hs He Hp]. split; simpl; try done.
    intros S E T. rewrite lookup_insert. case_decide as Hk.
    + intros [= <-]. by injection Hk as <- <-.
    + apply He.
  - (* NEW_GENERIC_TRANSITION *)
    destruct Hwf as [Hn Hs He Hp]. split; simpl; try done.
    intros E T. rewrite lookup_insert. case_decide as Hk.
    + intros [= <-]. by subst.
    + apply Hp.
  - by destruct Hwf.
  - by destruct Hwf.
  - by destruct Hwf.
Qed.

Lemma translate_well_formed tu r r' :
  translate tu r = Ok r' → well_formed r → well_formed r'.
Proof.
  revert r. induction tu as [|d tu IH]; intros r H Hwf; simpl in H.
  - by injection H as <-.
  - apply bind_Ok in H as (r1 & Hd & Htu).
    eapply IH; [done|]. by eapply declare_well_formed.
Qed.

Lemma compile_well_formed tu r : compile tu = Ok r → well_formed r.
Proof.
  intros H. eapply translate_well_formed; [done|].
  apply no_declarations_well_formed.
Qed.

(** ** From the macro uses to the specialisations and back *)

Lemma registered_extends d r r' :
  extends r r' → registered d r → registered d r'.
Proof.
  intros [] H. destruct d; simpl in *; destruct_and?; split_and?;
    by eapply lookup_weaken.
Qed.

Lemma declare_registered d r r' : declare d r = Ok r' → registered d r'.
Proof.
  intros H. destruct d; simpl in H; elaborated H; simpl;
    split_and?; by rewrite lookup_insert_eq.
Qed.

Lemma translate_registered tu r r' d :
  translate tu r = Ok r' → d ∈ tu → registered d r'.
Proof.
  revert r. induction tu as [|d' tu IH]; intros r H Hd; simpl in H.
  - by apply elem_of_nil in Hd.
  - apply bind_Ok in H as (r1 & Hd' & Htu).
    apply elem_of_cons in Hd as [->|Hd].
    + eapply registered_extends; [by eapply translate_extends|].
      by eapply declare_registered.
    + by eapply IH.
Qed.

Lemma compile_registered tu r d :
  compile tu = Ok r → d ∈ tu → registered d r.
Proof. apply translate_registered. Qed.

(** Every explicit specialisation of [FSM_Transition] comes from a
    [NEW_TRANSITION]. *)
Lemma declare_explicit_origin d r r' S E T :
  declare d r = Ok r' →
  Transition_explicit r' !! (S, E) = Some T →
  Transition_explicit r !! (S, E) = Some T ∨ d = NEW_TRANSITION S E T.
Proof.
  intros H. destruct d; simpl in H; elaborated H; simpl; auto.
  rewrite lookup_insert. case_decide as Hk; [|by left].
  intros [= <-]. injection Hk as <- <-. by right.
Qed.

Lemma translate_explicit_origin tu r r' S E T :
  translate tu r = Ok r' →
  Transition_explicit r' !! (S, E) = Some T →
  Transition_explicit r !! (S, E) = Some T ∨ NEW_TRANSITION S E T ∈ tu.
Proof.
  revert r. induction tu as [|d tu IH]; intros r H HT; simpl in H.
  - injection H as <-. by left.
  - apply bind_Ok in H as (r1 & Hd & Htu).
    destruct (IH _ Htu HT) as [H1|Hin]; [|right; by apply elem_of_cons; right].
    destruct (declare_explicit_origin _ _ _ _ _ _ Hd H1) as [?| ->];
      [by left|right; by apply elem_of_cons; left].
Qed.

Lemma compile_no_exact_rule tu r S E :
  compile tu = Ok r →
  (∀ T, NEW_TRANSITION S E T ∉ tu) →
  Transition_explicit r !! (S, E) = None.
Proof.
  intros H Hno. destruct (Transition_explicit r !! (S, E)) as [T|] eqn:HT; [|done].
  destruct (translate_explicit_origin _ _ _ _ _ _ H HT) as [Hempty|Hin].
  - simpl in Hempty. by rewrite lookup_empty in Hempty.
  - by destruct (Hno T).
Qed.

(** Every partial specialisation comes from a [NEW_GENERIC_TRANSITION]. *)
Lemma declare_partial_origin d r r' E T :
  declare d r = Ok r' →
  Transition_partial r' !! E = Some T →
  Transition_partial r !! E = Some T ∨ d = NEW_GENERIC_TRANSITION E T.
Proof.
  intros H. destruct d; simpl in H; elaborated H; simpl; auto.
  rewrite lookup_insert. case_decide as Hk; [|by left].
  intros [= <-]. subst. by right.
Qed.

Lemma translate_partial_origin tu r r' E T :
  translate tu r = Ok r' →
  Transition_partial r' !! E = Some T →
  Transition_partial r !! E = Some T ∨ NEW_GENERIC_TRANSITION E T ∈ tu.
Proof.
  revert r. induction tu as [|d tu IH]; intros r H HT; simpl in H.
  - injection H as <-. by left.
  - apply bind_Ok in H as (r1 & Hd & Htu).
    destruct (IH _ Htu HT) as [H1|Hin]; [|right; by apply elem_of_cons; right].
    destruct (declare_partial_origin _ _ _ _ _ Hd H1) as [?| ->];
      [by left|right; by apply elem_of_cons; left].
Qed.

Lemma compile_no_rule tu r S E :
  compile tu = Ok r →
  (∀ T, NEW_TRANSITION S E T ∉ tu) →
  (∀ T, NEW_GENERIC_TRANSITION E T ∉ tu) →
  FSM_Transition r S E = None.
Proof.
  intros H Hexact Hgeneric. unfold FSM_Transition.
  rewrite (compile_no_exact_rule _ _ _ _ H Hexact).
  destruct (Transition_partial r !! E) as [T|] eqn:HT; [|by case_match].
  destruct (translate_partial_origin _ _ _ _ _ H HT) as [Hempty|Hin].
  - simpl in Hempty. by rewrite lookup_empty in Hempty.
  - by destruct (Hgeneric T).
Qed.

(** * Properties of the dispatcher *)

(** ** Sequencing *)

Lemma bind_instantiate_Ok {A B} (a : A) (f : A → traced B) :
  instantiate (Ok a) ≫= f = f a.
Proof. simpl. by destruct (f a) as [[b out]|e]. Qed.

(** ** The constructor *)

Lemma FSM_ctor_state r S :
  derived_FSM_State r S = true →
  FSM_ctor r S = Ok (FSM_in S, [exec_On_Enter S]).
Proof. intros HS. unfold FSM_ctor, require. by rewrite HS. Qed.

(** C7. Constructing [FSM<S>] for a state type [S] succeeds and performs
    exactly one call, [FSM_On_Enter<S>::exec()]: the enter hook of the
    initial state runs once, and no exit or tick hook runs. *)
Theorem construction_runs_enter_once r S :
  derived_FSM_State r S = true →
  FSM_ctor r S = Ok (FSM_in S, [exec_On_Enter S]) ∧
  filter (λ e, is_hook e = true) (effects (FSM_ctor r S)) = [exec_On_Enter S].
Proof. intros HS. by rewrite FSM_ctor_state. Qed.

Lemma construction_runs_enter_once_witness :
  derived_FSM_State basic_registry "s_init" = true ∧
  FSM_ctor basic_registry "s_init"
    = Ok (FSM_in "s_init", [exec_On_Enter "s_init"]) ∧
  filter (λ e, is_hook e = true) (effects (FSM_ctor basic_registry "s_init"))
    = [exec_On_Enter "s_init"].
Proof.
  split; [vm_compute; reflexivity|].
  apply (construction_runs_enter_once basic_registry "s_init").
  vm_compute; reflexivity.
Defined.

(** ** The two branches of [dispatch] *)

Lemma critical_is_event r E :
  derived_FSM_CriticalEvent r E = true → derived_FSM_Event r E = true.
Proof.
  unfold derived_FSM_CriticalEvent, derived_FSM_Event, derived_from.
  by destruct (structs r !! E) as [[]|].
Qed.

Lemma FSM_Transition_constrained r S E T :
  FSM_Transition r S E = Some T →
  derived_FSM_State r S = true ∧ derived_FSM_Event r E = true.
Proof.
  unfold FSM_Transition.
  destruct (derived_FSM_State r S), (derived_FSM_Event r E); naive_solver.
Qed.

(** The branch taken when [can_handle_event] holds. *)
Lemma dispatch_handled r S E T :
  FSM_Transition r S E = Some T →
  derived_FSM_State r T = true →
  dispatch r (FSM_in S) E =
    Ok (FSM_in T,
        if derived_FSM_CriticalEvent r E
        then [exec_On_Enter T]
        else [exec_On_Exit S; exec_On_Enter T]).
Proof.
  intros HT HT'. destruct (FSM_Transition_constrained _ _ _ _ HT) as [_ HE].
  unfold dispatch, require, can_handle_event, next_state. simpl.
  rewrite HE, HT, bind_instantiate_Ok. simpl.
  destruct (derived_FSM_CriticalEvent r E); simpl;
    by rewrite (FSM_ctor_state _ _ HT').
Qed.

(** The branch taken when it does not. *)
Lemma dispatch_unhandled r S E :
  derived_FSM_Event r E = true →
  FSM_Transition r S E = None →
  dispatch r (FSM_in S) E =
    _ ← print_unhandled_event r S E; mret (FSM_in S).
Proof.
  intros HE HT. unfold dispatch, require, can_handle_event. simpl.
  rewrite HE, HT. simpl.
  by destruct (print_unhandled_event r S E) as [[[] out]|e].
Qed.


(** ** Dispatch in a translation unit that compiles *)

Section compiled.

Context (tu : list decl) (r : registry).
Hypothesis compiles : compile tu = Ok r.

Lemma compiled_well_formed : well_formed r.
Proof. by eapply compile_well_formed. Qed.

Lemma FSM_Transition_target S E T :
  FSM_Transition r S E = Some T → derived_FSM_State r T = true.
Proof.
  unfold FSM_Transition.
  destruct (derived_FSM_State r S && derived_FSM_Event r E); [|done].
  destruct (Transition_explicit r !! (S, E)) as [T'|] eqn:HX.
  - intros [= ->]. by eapply explicit_checked, HX; apply compiled_well_formed.
  - intros HP. by eapply partial_checked, HP; apply compiled_well_formed.
Qed.

Lemma explicit_rule_resolves S E T :
  NEW_TRANSITION S E T ∈ tu → FSM_Transition r S E = Some T.
Proof.
  intros Hin.
  pose proof (compile_registered _ _ _ compiles Hin) as HX. simpl in HX.
  destruct (explicit_checked _ compiled_well_formed _ _ _ HX) as (HS & HE & _).
  unfold FSM_Transition. by rewrite HS, HE, HX.
Qed.


Lemma dispatch_resolved S E T :
  FSM_Transition r S E = Some T →
  dispatch r (FSM_in S) E =
    Ok (FSM_in T,
        if derived_FSM_CriticalEvent r E
        then [exec_On_Enter T]
        else [exec_On_Exit S; exec_On_Enter T]).
Proof.
  intros HT. apply dispatch_handled; [done|]. by eapply FSM_Transition_target.
Qed.

(** C4. When [NEW_TRANSITION(S, E, T)] is registered and [E] is not critical,
    [FSM<S>::dispatch(E)] returns [FSM<T>] and performs exactly two calls:
    the exit hook of [S], then the enter hook of [T]. *)
Theorem exact_rule_exit_then_enter S E T :
  NEW_TRANSITION S E T ∈ tu →
  derived_FSM_CriticalEvent r E = false →
  dispatch r (FSM_in S) E
    = Ok (FSM_in T, [exec_On_Exit S; exec_On_Enter T]).
Proof.
  intros Hin HC.
  rewrite (dispatch_resolved S E T) by by apply explicit_rule_resolves.
  by rewrite HC.
Qed.

(** C1. When [E] is critical and [FSM_Transition<S, E>] resolves to [T],
    [FSM<S>::dispatch(E)] returns [FSM<T>] and its only call is the enter
    hook of [T]; the exit hook of [S] is not called, although every
    non-critical event that resolves from [S] does call it. *)
Theorem critical_event_skips_exit S E T :
  derived_FSM_CriticalEvent r E = true →
  FSM_Transition r S E = Some T →
  dispatch r (FSM_in S) E = Ok (FSM_in T, [exec_On_Enter T]) ∧
  (exec_On_Enter T ∈ effects (dispatch r (FSM_in S) E)) ∧
  (exec_On_Exit S ∉ effects (dispatch r (FSM_in S) E)) ∧
  (∀ E' T',
     derived_FSM_CriticalEvent r E' = false →
     FSM_Transition r S E' = Some T' →
     exec_On_Exit S ∈ effects (dispatch r (FSM_in S) E')).
Proof.
  intros HC HT. rewrite (dispatch_resolved S E T HT), HC. simpl.
  split_and!.
  - done.
  - by apply list_elem_of_singleton.
  - by intros [=]%list_elem_of_singleton.
  - intros E' T' HC' HT'.
    rewrite (dispatch_resolved S E' T' HT'), HC'. simpl.
    apply elem_of_cons. by left.
Qed.

(** C2. When both [NEW_TRANSITION(S, E, T1)] and
    [NEW_GENERIC_TRANSITION(E, T2)] are registered, [FSM_Transition<S, E>]
    is the explicit specialisation: dispatching [E] from [S] returns
    [FSM<T1>], and any FSM it returns is in [T1]. *)
Theorem exact_rule_takes_precedence S E T1 T2 :
  NEW_TRANSITION S E T1 ∈ tu →
  NEW_GENERIC_TRANSITION E T2 ∈ tu →
  FSM_Transition r S E = Some T1 ∧
  (∃ out, dispatch r (FSM_in S) E = Ok (FSM_in T1, out)) ∧
  (∀ next out, dispatch r (FSM_in S) E = Ok (next, out) → state next = T1).
Proof.
  intros Hexact _.
  pose proof (explicit_rule_resolves _ _ _ Hexact) as HT.
  rewrite (dispatch_resolved S E T1 HT).
  split_and!; [done|by eexists|]. by intros next out [= <- _].
Qed.



(** ** Unhandled events and diagnostic names *)

(** Every struct from [NEW_STATE] or [NEW_EVENT] is named by its own
    identifier. *)
Lemma FSM_State_Name_ordinary T :
  (derived_FSM_State r T = true ∨
   derived_FSM_Event r T = true ∧ derived_FSM_CriticalEvent r T = false) →
  FSM_State_Name r T = Ok T.
Proof.
  unfold derived_FSM_State, derived_FSM_Event, derived_FSM_CriticalEvent,
    derived_from, FSM_State_Name.
  destruct (structs r !! T) as [b|] eqn:Hb.
  - intros Hkind. rewrite (struct_named _ compiled_well_formed T b Hb); [done|].
    intros ->. simpl in Hkind. by destruct Hkind as [?|[? ?]].
  - by intros [?|[? ?]].
Qed.

(** A struct from [NEW_CRITICAL_EVENT] has no [FSM_State_Name]. *)
Lemma critical_event_unnamed E :
  derived_FSM_CriticalEvent r E = true → State_Name r !! E = None.
Proof.
  unfold derived_FSM_CriticalEvent, derived_from. intros HC.
  destruct (structs r !! E) as [b|] eqn:Hb; [|done].
  destruct (State_Name r !! E) as [name|] eqn:Hname; [|done].
  destruct (named_struct _ compiled_well_formed _ _ Hname)
    as (_ & b' & Hb' & Hne).
  rewrite Hb in Hb'. injection Hb' as <-. by destruct b.
Qed.

(** The unhandled-event path for an event declared by [NEW_EVENT]: the FSM
    is returned as it is, no hook is called, and one line with the two names
    is printed. *)
Lemma dispatch_unhandled_ordinary S E :
  derived_FSM_State r S = true →
  derived_FSM_Event r E = true →
  derived_FSM_CriticalEvent r E = false →
  FSM_Transition r S E = None →
  dispatch r (FSM_in S) E =
    Ok (FSM_in S,
        [cout ("[FSM DEBUG]: Unhandled event <" +:+ E +:+ "> in state <"
                 +:+ S +:+ ">" +:+ endl)]).
Proof.
  intros HS HE HC HT. rewrite dispatch_unhandled by done.
  unfold print_unhandled_event.
  by rewrite !FSM_State_Name_ordinary by auto.
Qed.

(** C6. [NEW_CRITICAL_EVENT(event)] defines the struct [ce_event] and
    nothing else: in every translation unit that compiles,
    [FSM_State_Name<ce_event>] is undefined, and dispatching [ce_event]
    from any state in which it is unhandled is ill-formed instead of
    printing a diagnostic with the two names. *)
Theorem critical_event_has_no_name event :
  NEW_CRITICAL_EVENT event ∈ tu →
  derived_FSM_CriticalEvent r ("ce_" +:+ event) = true ∧
  State_Name r !! ("ce_" +:+ event) = None ∧
  (∀ S,
     FSM_Transition r S ("ce_" +:+ event) = None →
     dispatch r (FSM_in S) ("ce_" +:+ event)
       = Ill_formed (incomplete_type "FSM_State_Name" ("ce_" +:+ event))).
Proof.
  intros Hin.
  pose proof (compile_registered _ _ _ compiles Hin) as Hreg. simpl in Hreg.
  assert (derived_FSM_CriticalEvent r ("ce_" +:+ event) = true) as HC.
  { unfold derived_FSM_CriticalEvent, derived_from. by rewrite Hreg. }
  pose proof (critical_event_unnamed _ HC) as Hname.
  split_and!; [done..|].
  intros S HT. rewrite dispatch_unhandled; [|by apply critical_is_event|done].
  unfold print_unhandled_event, FSM_State_Name. by rewrite Hname.
Qed.

End compiled.

(** ** The theorems at the example machines *)

(** Settles [d ∈ tu] and [d ∉ tu] for a concrete translation unit. *)
Ltac declared := apply (bool_decide_unpack _); vm_compute; exact I.

Ltac not_declared :=
  let Hin := fresh "Hin" in
  intros Hin; apply list_elem_of_In in Hin; simpl in Hin;
  repeat (destruct Hin as [Hin|Hin]; [discriminate Hin || (by inversion Hin)|]);
  exact Hin.

Lemma exact_rule_exit_then_enter_witness :
  dispatch basic_registry (FSM_in "s_init") "e_ready"
    = Ok (FSM_in "s_idle", [exec_On_Exit "s_init"; exec_On_Enter "s_idle"]).
Proof.
  apply (exact_rule_exit_then_enter basic_fsm).
  - vm_compute; reflexivity.
  - declared.
  - vm_compute; reflexivity.
Defined.

Lemma critical_event_skips_exit_witness :
  dispatch basic_registry (FSM_in "s_tx") "ce_reset"
    = Ok (FSM_in "s_init", [exec_On_Enter "s_init"]) ∧
  (exec_On_Exit "s_tx" ∉
     effects (dispatch basic_registry (FSM_in "s_tx") "ce_reset")) ∧
  (exec_On_Exit "s_tx" ∈
     effects (dispatch basic_registry (FSM_in "s_tx") "e_done")).
Proof.
  destruct (critical_event_skips_exit basic_fsm basic_registry)
    with (S := "s_tx") (E := "ce_reset") (T := "s_init")
    as (Hd & _ & Hskip & Hexit).
  - vm_compute; reflexivity.
  - vm_compute; reflexivity.
  - vm_compute; reflexivity.
  - split_and!; [exact Hd|exact Hskip|].
    apply (Hexit "e_done" "s_idle"); vm_compute; reflexivity.
Defined.

Lemma exact_rule_takes_precedence_witness :
  FSM_Transition override_registry "s_init" "e_fail" = Some "s_idle" ∧
  (∃ out, dispatch override_registry (FSM_in "s_init") "e_fail"
            = Ok (FSM_in "s_idle", out)) ∧
  (∀ next out,
     dispatch override_registry (FSM_in "s_init") "e_fail" = Ok (next, out) →
     state next = "s_idle").
Proof.
  apply (exact_rule_takes_precedence override_fsm) with (T2 := "s_error").
  - vm_compute; reflexivity.
  - declared.
  - declared.
Defined.



Lemma critical_event_has_no_name_witness :
  State_Name halt_registry !! "ce_halt" = None ∧
  dispatch halt_registry (FSM_in "s_init") "ce_halt"
    = Ill_formed (incomplete_type "FSM_State_Name" "ce_halt").
Proof.
  destruct (critical_event_has_no_name halt_fsm halt_registry)
    with (event := "halt") as (_ & Hname & Hd).
  - vm_compute; reflexivity.
  - declared.
  - split; [exact Hname|].
    apply (Hd "s_init"). vm_compute; reflexivity.
Defined.

(** ** Tick hooks *)

Lemma no_tick_bind {A B} (m : traced A) (f : A → traced B) :
  no_tick (effects m) →
  (∀ a, no_tick (effects (f a))) →
  no_tick (effects (m ≫= f)).
Proof.
  unfold no_tick. destruct m as [[a out]|e]; simpl; intros Hm Hf; [|constructor].
  specialize (Hf a). destruct (f a) as [[b out']|e]; simpl in *; [|constructor].
  by apply Forall_app.
Qed.

Lemma no_tick_instantiate {A} (c : result A) : no_tick (effects (instantiate c)).
Proof. destruct c; constructor. Qed.

Lemma no_tick_mret {A} (a : A) : no_tick (effects (mret a : traced A)).
Proof. constructor. Qed.

Lemma no_tick_perform e : is_tick e = false → no_tick (effects (perform e)).
Proof. intros He. by repeat constructor. Qed.

Create HintDb tick.

#[local] Hint Resolve no_tick_instantiate no_tick_mret no_tick_perform : tick.

Lemma FSM_ctor_no_tick r S : no_tick (effects (FSM_ctor r S)).
Proof.
  unfold FSM_ctor.
  repeat (apply no_tick_bind; [auto with tick|intros ?]). auto with tick.
Qed.

Lemma print_unhandled_event_no_tick r S E :
  no_tick (effects (print_unhandled_event r S E)).
Proof.
  unfold print_unhandled_event.
  repeat (apply no_tick_bind; [auto with tick|intros ?]). auto with tick.
Qed.

Lemma dispatch_no_tick r this E : no_tick (effects (dispatch r this E)).
Proof.
  unfold dispatch. apply no_tick_bind; [auto with tick|intros _].
  destruct (negb (can_handle_event r (state this) E)).
  - apply no_tick_bind; [apply print_unhandled_event_no_tick|intros _].
    auto with tick.
  - apply no_tick_bind; [|intros _].
    { destruct (negb (derived_FSM_CriticalEvent r E)); auto with tick. }
    apply no_tick_bind; [auto with tick|intros T]. apply FSM_ctor_no_tick.
Qed.

Lemma run_no_tick r fsm events : no_tick (effects (run r fsm events)).
Proof.
  revert fsm. induction events as [|E events IH]; intros fsm; simpl.
  - constructor.
  - apply no_tick_bind; [apply dispatch_no_tick|done].
Qed.

(** C8. No call performed by [FSM<S>::FSM()], by [dispatch], or by any
    sequence of dispatches is a call of [FSM_On_Tick<_>::exec()], for every
    registry, state and event, whether the pair resolves or not: the only
    calls of a tick hook are the host's own. *)
Theorem tick_never_invoked r this E S events :
  no_tick (effects (FSM_ctor r S)) ∧
  no_tick (effects (dispatch r this E)) ∧
  no_tick (effects (run r this events)).
Proof.
  split_and!.
  - apply FSM_ctor_no_tick.
  - apply dispatch_no_tick.
  - apply run_no_tick.
Qed.

(** ** Purity *)



(** ** An unhandled critical event *)

(** C3. [ce_halt] is declared by [NEW_CRITICAL_EVENT] and has no rule from
    [s_init]; the translation unit compiles, but dispatching [ce_halt] from
    [s_init] instantiates [FSM_Debug_Printer<s_init, ce_halt>], which needs
    [FSM_State_Name<ce_halt>]: the call is ill-formed, so no FSM is returned
    and no diagnostic is printed. *)
Theorem unhandled_critical_event_ill_formed :
  compile halt_fsm = Ok halt_registry ∧
  derived_FSM_Event halt_registry "ce_halt" = true ∧
  FSM_Transition halt_registry "s_init" "ce_halt" = None ∧
  dispatch halt_registry (FSM_in "s_init") "ce_halt"
    = Ill_formed (incomplete_type "FSM_State_Name" "ce_halt").
Proof.
  assert (derived_FSM_Event halt_registry "ce_halt" = true) as HE
    by (vm_compute; reflexivity).
  assert (FSM_Transition halt_registry "s_init" "ce_halt" = None) as HT
    by (vm_compute; reflexivity).
  split_and!; [vm_compute; reflexivity|done|done|].
  rewrite (dispatch_unhandled _ _ _ HE HT).
  unfold print_unhandled_event.
  replace (FSM_State_Name halt_registry "ce_halt")
    with (@Ill_formed string (incomplete_type "FSM_State_Name" "ce_halt"))
    by (vm_compute; reflexivity).
  reflexivity.
Qed.

(** ** The example machine, end to end *)

(** From [s_init]: [e_ready], [e_startTx], the critical [ce_reset], then
    [e_done], which [s_init] does not handle. *)
Example basic_fsm_scenario :
  compile basic_fsm = Ok basic_registry ∧
  FSM_ctor basic_registry "s_init"
    = Ok (FSM_in "s_init", [exec_On_Enter "s_init"]) ∧
  run basic_registry (FSM_in "s_init")
      ["e_ready"; "e_startTx"; "ce_reset"; "e_done"]
    = Ok (FSM_in "s_init",
          [exec_On_Exit "s_init"; exec_On_Enter "s_idle";
           exec_On_Exit "s_idle"; exec_On_Enter "s_tx";
           exec_On_Enter "s_init";
           cout ("[FSM DEBUG]: Unhandled event <e_done> in state <s_init>"
                   +:+ endl)]) ∧
  console basic_registry
      (effects (run basic_registry (FSM_in "s_init")
                  ["e_ready"; "e_startTx"; "ce_reset"; "e_done"]))
    = [ "Exiting init state" +:+ endl; "Entering idle state" +:+ endl;
        "Exiting idle state" +:+ endl; "Entering tx state" +:+ endl;
        "Entering init state" +:+ endl;
        "[FSM DEBUG]: Unhandled event <e_done> in state <s_init>" +:+ endl ].
Proof. split_and!; vm_compute; reflexivity. Qed.

(** * The one-definition rule *)

Lemma defined_extends r r' x : extends r r' → defined r x → defined r' x.
Proof.
  intros [] H. destruct x; simpl in *; by eapply lookup_weaken_is_Some.
Qed.

Lemma declare_defines d r r' :
  declare d r = Ok r' → ¬ defined r (defines d) ∧ defined r' (defines d).
Proof.
  intros H. destruct d; simpl in H; elaborated H; simpl;
    (split; [by intros [? ?]; simplify_eq|by rewrite lookup_insert_eq]).
Qed.

Lemma translate_defines_fresh tu r r' :
  translate tu r = Ok r' →
  NoDup (defines <$> tu) ∧ ∀ d, d ∈ tu → ¬ defined r (defines d).
Proof.
  revert r. induction tu as [|d tu IH]; intros r H; simpl in H.
  - split; [constructor|]. by intros d ?%elem_of_nil.
  - apply bind_Ok in H as (r1 & Hd & Htu).
    destruct (IH _ Htu) as [Hnodup Hfresh].
    destruct (declare_defines _ _ _ Hd) as [Hnot Hnow].
    pose proof (declare_extends _ _ _ Hd) as Hext.
    split.
    + rewrite fmap_cons. constructor; [|done].
      intros (d' & Heq & Hin)%list_elem_of_fmap.
      apply (Hfresh d' Hin). by rewrite <- Heq.
    + intros d' [->|Hin]%elem_of_cons; [done|].
      intros Hdef. apply (Hfresh d' Hin). by eapply defined_extends.
Qed.

(** X1. A translation unit that compiles defines no struct and no
    specialisation twice; in particular a pair (state, event) has at most
    one exact rule and an event at most one generic rule. *)
Theorem one_definition_rule tu r :
  compile tu = Ok r →
  NoDup (defines <$> tu) ∧
  (∀ S E T1 T2,
     NEW_TRANSITION S E T1 ∈ tu → NEW_TRANSITION S E T2 ∈ tu → T1 = T2) ∧
  (∀ E T1 T2,
     NEW_GENERIC_TRANSITION E T1 ∈ tu → NEW_GENERIC_TRANSITION E T2 ∈ tu →
     T1 = T2).
Proof.
  intros H. split_and!.
  - by destruct (translate_defines_fresh _ _ _ H).
  - intros S E T1 T2 H1 H2.
    pose proof (compile_registered _ _ _ H H1) as R1.
    pose proof (compile_registered _ _ _ H H2) as R2.
    simpl in *. congruence.
  - intros E T1 T2 H1 H2.
    pose proof (compile_registered _ _ _ H H1) as R1.
    pose proof (compile_registered _ _ _ H H2) as R2.
    simpl in *. congruence.
Qed.

Lemma one_definition_rule_witness : NoDup (defines <$> basic_fsm).
Proof.
  apply (one_definition_rule basic_fsm basic_registry).
  vm_compute; reflexivity.
Defined.

(** X2. Using a macro a second time for the same struct or the same
    specialisation makes the translation unit ill-formed, wherever the two
    uses stand and whatever they register. *)
Theorem second_definition_rejected tu1 d tu2 d' tu3 :
  defines d = defines d' →
  ∃ e, compile (tu1 ++ d :: tu2 ++ d' :: tu3) = Ill_formed e.
Proof.
  intros Hsame.
  destruct (compile (tu1 ++ d :: tu2 ++ d' :: tu3)) as [r|e] eqn:H; [|by eexists].
  destruct (translate_defines_fresh _ _ _ H) as [Hnodup _].
  rewrite fmap_app, fmap_cons, fmap_app, fmap_cons in Hnodup.
  apply NoDup_app in Hnodup as (_ & _ & Hnodup).
  apply NoDup_cons in Hnodup as [Hnotin _].
  destruct Hnotin. rewrite Hsame. apply elem_of_app. right. by left.
Qed.

Lemma second_definition_rejected_witness :
  ∃ e, compile (basic_fsm ++ [NEW_TRANSITION "s_init" "e_ready" "s_tx"])
       = Ill_formed e.
Proof.
  apply (second_definition_rejected
           (take 11 basic_fsm) (NEW_TRANSITION "s_init" "e_ready" "s_idle")
           (drop 12 basic_fsm) (NEW_TRANSITION "s_init" "e_ready" "s_tx") []).
  reflexivity.
Defined.

(** * Where the types come from *)






(** * Declaration before use *)

Lemma translate_app tu1 tu2 r :
  translate (tu1 ++ tu2) r = translate tu1 r ≫= translate tu2.
Proof.
  revert r. induction tu1 as [|d tu1 IH]; intros r; simpl; [done|].
  destruct (declare d r) as [r1|e]; simpl; [apply IH|done].
Qed.




(** * What one dispatch can do *)

(** X5. A dispatch has one of three shapes, whatever the registry: the FSM
    is returned as it is after one line on [std::cout] and no hook (the
    pair does not resolve); or the FSM of the resolved state is returned
    after the enter hook of that state alone (critical event); or after
    the exit hook of the current state and then the enter hook of the
    resolved state.  It never calls two enter hooks, an exit hook of
    another state, or prints when it moves. *)
Theorem dispatch_effects_shape r this E next out :
  dispatch r this E = Ok (next, out) →
  (FSM_Transition r (state this) E = None ∧ next = this ∧
   ∃ text, out = [cout text]) ∨
  (FSM_Transition r (state this) E = Some (state next) ∧
   derived_FSM_CriticalEvent r E = true ∧
   out = [exec_On_Enter (state next)]) ∨
  (FSM_Transition r (state this) E = Some (state next) ∧
   derived_FSM_CriticalEvent r E = false ∧
   out = [exec_On_Exit (state this); exec_On_Enter (state next)]).
Proof.
  unfold dispatch, require, can_handle_event, next_state.
  destruct (derived_FSM_Event r E); simpl; [|done].
  destruct (FSM_Transition r (state this) E) as [T|]; simpl.
  - unfold FSM_ctor, require.
    destruct (derived_FSM_State r T), (derived_FSM_CriticalEvent r E);
      simpl; intros [= <- <-]; auto.
  - unfold print_unhandled_event.
    destruct (FSM_State_Name r E) as [event_name|]; simpl; [|done].
    destruct (FSM_State_Name r (state this)) as [state_name|]; simpl; [|done].
    intros [= <- <-]. left. eauto.
Qed.

Lemma dispatch_effects_shape_witness :
  (FSM_Transition basic_registry "s_idle" "e_startRx" = None ∧
   FSM_in "s_rx" = FSM_in "s_idle" ∧
   ∃ text, [exec_On_Exit "s_idle"; exec_On_Enter "s_rx"] = [cout text]) ∨
  (FSM_Transition basic_registry "s_idle" "e_startRx" = Some "s_rx" ∧
   derived_FSM_CriticalEvent basic_registry "e_startRx" = true ∧
   [exec_On_Exit "s_idle"; exec_On_Enter "s_rx"] = [exec_On_Enter "s_rx"]) ∨
  (FSM_Transition basic_registry "s_idle" "e_startRx" = Some "s_rx" ∧
   derived_FSM_CriticalEvent basic_registry "e_startRx" = false ∧
   [exec_On_Exit "s_idle"; exec_On_Enter "s_rx"]
     = [exec_On_Exit "s_idle"; exec_On_Enter "s_rx"]).
Proof.
  apply (dispatch_effects_shape basic_registry
           (FSM_in "s_idle") "e_startRx" (FSM_in "s_rx")).
  vm_compute; reflexivity.
Defined.

(** * The FSM stays among the declared states *)

Lemma dispatch_stays_in_states r this E next out :
  derived_FSM_State r (state this) = true →
  dispatch r this E = Ok (next, out) →
  derived_FSM_State r (state next) = true.
Proof.
  intros Hthis. unfold dispatch, require, can_handle_event, next_state.
  destruct (derived_FSM_Event r E); simpl; [|done].
  destruct (FSM_Transition r (state this) E) as [T|]; simpl.
  - unfold FSM_ctor, require.
    destruct (derived_FSM_State r T) eqn:HT,
      (derived_FSM_CriticalEvent r E); simpl; by intros [= <- _].
  - destruct (print_unhandled_event r (state this) E) as [[[] out']|e];
      simpl; [|done]. by intros [= <- _].
Qed.

Lemma traced_bind_Ok {A B} (m : traced A) (f : A → traced B) b out :
  m ≫= f = Ok (b, out) ↔
  ∃ a out1 out2, m = Ok (a, out1) ∧ f a = Ok (b, out2) ∧ out = out1 ++ out2.
Proof.
  destruct m as [[a out1]|e]; simpl.
  - destruct (f a) as [[b' out2]|e] eqn:Hf; split.
    + intros [= <- <-]. by exists a, out1, out2.
    + intros (a' & o1 & o2 & [= <- <-] & Hf' & ->). congruence.
    + done.
    + intros (a' & o1 & o2 & [= <- <-] & Hf' & _). congruence.
  - split; [done|]. by intros (a' & o1 & o2 & [=] & _).
Qed.

Lemma run_derived_FSM_State r fsm events final out :
  derived_FSM_State r (state fsm) = true →
  run r fsm events = Ok (final, out) →
  derived_FSM_State r (state final) = true.
Proof.
  revert fsm out. induction events as [|E events IH]; intros fsm out Hfsm; simpl.
  - by intros [= <- _].
  - intros (next & out1 & out2 & Hd & Hrun & _)%traced_bind_Ok.
    eapply IH; [|done]. by eapply dispatch_stays_in_states.
Qed.

(** X6. Starting from a declared state, no dispatch and no sequence of
    dispatches leads anywhere else: after every run that is well-formed the
    current state is again a struct derived from [FSM_State]. *)
Theorem run_stays_in_states r fsm events final out :
  derived_FSM_State r (state fsm) = true →
  run r fsm events = Ok (final, out) →
  derived_FSM_State r (state final) = true.
Proof. apply run_derived_FSM_State. Qed.

Lemma run_stays_in_states_witness :
  derived_FSM_State basic_registry "s_rx" = true.
Proof.
  apply (run_stays_in_states basic_registry (FSM_in "s_init")
           ["e_ready"; "e_done"; "e_startRx"] (FSM_in "s_rx")
           [exec_On_Exit "s_init"; exec_On_Enter "s_idle";
            cout ("[FSM DEBUG]: Unhandled event <e_done> in state <s_idle>"
                    +:+ endl);
            exec_On_Exit "s_idle"; exec_On_Enter "s_rx"]).
  - vm_compute; reflexivity.
  - vm_compute; reflexivity.
Defined.

(** * Which dispatches compile *)



(** * Unhandled events *)


(** X8. An event declared by [NEW_EVENT] that has neither an exact rule in
    a state nor a generic rule is a no-op there, as often as it is
    dispatched: the FSM stays in the state, no hook is called, and each
    dispatch prints the line that names the event and the state. *)
Theorem unhandled_event_is_noop tu r s e n :
  compile tu = Ok r →
  NEW_STATE s ∈ tu →
  NEW_EVENT e ∈ tu →
  (∀ T, NEW_TRANSITION ("s_" +:+ s) ("e_" +:+ e) T ∉ tu) →
  (∀ T, NEW_GENERIC_TRANSITION ("e_" +:+ e) T ∉ tu) →
  run r (FSM_in ("s_" +:+ s)) (replicate n ("e_" +:+ e)) =
    Ok (FSM_in ("s_" +:+ s),
        replicate n
          (cout ("[FSM DEBUG]: Unhandled event <" +:+ ("e_" +:+ e)
                   +:+ "> in state <" +:+ ("s_" +:+ s) +:+ ">" +:+ endl))).
Proof.
  intros H Hs He Hexact Hgeneric.
  pose proof (compile_registered _ _ _ H Hs) as [Rs _].
  pose proof (compile_registered _ _ _ H He) as [Re _]. simpl in Rs, Re.
  assert (dispatch r (FSM_in ("s_" +:+ s)) ("e_" +:+ e) =
            Ok (FSM_in ("s_" +:+ s),
                [cout ("[FSM DEBUG]: Unhandled event <" +:+ ("e_" +:+ e)
                   +:+ "> in state <" +:+ ("s_" +:+ s) +:+ ">" +:+ endl)]))
    as Hd.
  { apply (dispatch_unhandled_ordinary tu r H).
    - unfold derived_FSM_State, derived_from. by rewrite Rs.
    - unfold derived_FSM_Event, derived_from. by rewrite Re.
    - unfold derived_FSM_CriticalEvent, derived_from. by rewrite Re.
    - by apply (compile_no_rule tu). }
  induction n as [|n IH]; simpl; [done|].
  rewrite Hd. simpl. by rewrite IH.
Qed.

Lemma unhandled_event_is_noop_witness :
  run basic_registry (FSM_in "s_init") ["e_done"; "e_done"; "e_done"] =
    Ok (FSM_in "s_init",
        replicate 3
          (cout ("[FSM DEBUG]: Unhandled event <e_done> in state <s_init>"
                   +:+ endl))).
Proof.
  apply (unhandled_event_is_noop basic_fsm basic_registry "init" "done" 3).
  - vm_compute; reflexivity.
  - declared.
  - declared.
  - intros T. not_declared.
  - intros T. not_declared.
Defined.

(** * Generic rules *)



(** * Diagnostic names *)

(** X10. [NEW_STATE(x)] names [s_x] by the text of its identifier, and
    [NEW_EVENT(x)] names [e_x] likewise; since a name is the identifier of
    the struct it belongs to, two structs never share a name, so the line
    printed for an unhandled event determines the state and the event. *)
Theorem names_are_identifiers tu r :
  compile tu = Ok r →
  (∀ x, NEW_STATE x ∈ tu → FSM_State_Name r ("s_" +:+ x) = Ok ("s_" +:+ x)) ∧
  (∀ x, NEW_EVENT x ∈ tu → FSM_State_Name r ("e_" +:+ x) = Ok ("e_" +:+ x)) ∧
  (∀ T name, FSM_State_Name r T = Ok name → name = T) ∧
  (∀ T1 T2 name,
     FSM_State_Name r T1 = Ok name → FSM_State_Name r T2 = Ok name → T1 = T2).
Proof.
  intros H. pose proof (compile_well_formed _ _ H) as Hwf.
  assert (∀ T name, FSM_State_Name r T = Ok name → name = T) as Hid.
  { intros T name. unfold FSM_State_Name.
    destruct (State_Name r !! T) as [name'|] eqn:HT; [|done].
    intros [= <-]. by destruct (named_struct _ Hwf _ _ HT). }
  split_and!.
  - intros x Hin. destruct (compile_registered _ _ _ H Hin) as [_ Hname].
    unfold FSM_State_Name. by rewrite Hname.
  - intros x Hin. destruct (compile_registered _ _ _ H Hin) as [_ Hname].
    unfold FSM_State_Name. by rewrite Hname.
  - done.
  - intros T1 T2 name H1%Hid H2%Hid. congruence.
Qed.

Lemma names_are_identifiers_witness :
  FSM_State_Name basic_registry "s_idle" = Ok "s_idle" ∧
  FSM_State_Name basic_registry "e_startTx" = Ok "e_startTx".
Proof.
  destruct (names_are_identifiers basic_fsm basic_registry)
    as (Hstate & Hevent & _).
  - vm_compute; reflexivity.
  - split.
    + apply (Hstate "idle"). declared.
    + apply (Hevent "startTx"). declared.
Defined.

(** * Hooks *)

Lemma declare_hook_origin d r r' S body :
  declare d r = Ok r' →
  (On_Enter r' !! S = Some body →
   On_Enter r !! S = Some body ∨ d = NEW_ON_ENTER_ACTION S body) ∧
  (On_Exit r' !! S = Some body →
   On_Exit r !! S = Some body ∨ d = NEW_ON_EXIT_ACTION S body) ∧
  (On_Tick r' !! S = Some body →
   On_Tick r !! S = Some body ∨ d = NEW_ON_TICK_ACTION S body).
Proof.
  intros H. destruct d; simpl in H; elaborated H; simpl; split_and!; auto.
  all: rewrite lookup_insert; case_decide as HS; [|by left].
  all: intros [= <-]; subst; by right.
Qed.

Lemma translate_hook_origin tu r r' S body :
  translate tu r = Ok r' →
  (On_Enter r' !! S = Some body →
   On_Enter r !! S = Some body ∨ NEW_ON_ENTER_ACTION S body ∈ tu) ∧
  (On_Exit r' !! S = Some body →
   On_Exit r !! S = Some body ∨ NEW_ON_EXIT_ACTION S body ∈ tu) ∧
  (On_Tick r' !! S = Some body →
   On_Tick r !! S = Some body ∨ NEW_ON_TICK_ACTION S body ∈ tu).
Proof.
  revert r. induction tu as [|d tu IH]; intros r H; simpl in H.
  - injection H as <-. auto.
  - apply bind_Ok in H as (r1 & Hd & Htu).
    destruct (IH _ Htu) as (IHenter & IHexit & IHtick).
    destruct (declare_hook_origin _ _ _ S body Hd) as (Henter & Hexit & Htick).
    split_and!; intros Hlook.
    + destruct (IHenter Hlook) as [H1|?]; [|right; by right].
      destruct (Henter H1) as [?| ->]; [by left|right; by left].
    + destruct (IHexit Hlook) as [H1|?]; [|right; by right].
      destruct (Hexit H1) as [?| ->]; [by left|right; by left].
    + destruct (IHtick Hlook) as [H1|?]; [|right; by right].
      destruct (Htick H1) as [?| ->]; [by left|right; by left].
Qed.

Lemma hook_body_None (table : gmap string string) S :
  table !! S = None → hook_body table S = "".
Proof. unfold hook_body. by intros ->. Qed.

Lemma hook_body_Some (table : gmap string string) S body :
  table !! S = Some body → hook_body table S = body.
Proof. unfold hook_body. by intros ->. Qed.

(** X11. The body a hook call runs is the one registered for the state,
    and the empty body of the primary template when none was: a state
    without [NEW_ON_ENTER_ACTION] (or [.._EXIT_..], [.._TICK_..]) streams
    nothing on that call, and a state with one streams its body. *)
Theorem hooks_default_to_no_op tu r S :
  compile tu = Ok r →
  (∀ body, NEW_ON_ENTER_ACTION S body ∈ tu →
           streamed r (exec_On_Enter S) = body) ∧
  (∀ body, NEW_ON_EXIT_ACTION S body ∈ tu →
           streamed r (exec_On_Exit S) = body) ∧
  (∀ body, NEW_ON_TICK_ACTION S body ∈ tu →
           streamed r (exec_On_Tick S) = body) ∧
  ((∀ body, NEW_ON_ENTER_ACTION S body ∉ tu) →
   streamed r (exec_On_Enter S) = "") ∧
  ((∀ body, NEW_ON_EXIT_ACTION S body ∉ tu) →
   streamed r (exec_On_Exit S) = "") ∧
  ((∀ body, NEW_ON_TICK_ACTION S body ∉ tu) →
   streamed r (exec_On_Tick S) = "").
Proof.
  intros H. simpl. split_and!.
  - intros body Hin. apply hook_body_Some, (compile_registered _ _ _ H Hin).
  - intros body Hin. apply hook_body_Some, (compile_registered _ _ _ H Hin).
  - intros body Hin. apply hook_body_Some, (compile_registered _ _ _ H Hin).
  - intros Hno. apply hook_body_None.
    destruct (On_Enter r !! S) as [body|] eqn:Hlook; [|done].
    destruct (translate_hook_origin _ _ _ S body H) as (Horigin & _ & _).
    destruct (Horigin Hlook) as [He|Hin]; [|by destruct (Hno body)].
    simpl in He. by rewrite lookup_empty in He.
  - intros Hno. apply hook_body_None.
    destruct (On_Exit r !! S) as [body|] eqn:Hlook; [|done].
    destruct (translate_hook_origin _ _ _ S body H) as (_ & Horigin & _).
    destruct (Horigin Hlook) as [He|Hin]; [|by destruct (Hno body)].
    simpl in He. by rewrite lookup_empty in He.
  - intros Hno. apply hook_body_None.
    destruct (On_Tick r !! S) as [body|] eqn:Hlook; [|done].
    destruct (translate_hook_origin _ _ _ S body H) as (_ & _ & Horigin).
    destruct (Horigin Hlook) as [He|Hin]; [|by destruct (Hno body)].
    simpl in He. by rewrite lookup_empty in He.
Qed.

Lemma hooks_default_to_no_op_witness :
  streamed basic_registry (exec_On_Exit "s_tx") = "Exiting tx state" +:+ endl ∧
  streamed basic_registry (exec_On_Tick "s_tx") = "".
Proof.
  destruct (hooks_default_to_no_op basic_fsm basic_registry "s_tx")
    as (_ & Hexit & _ & _ & _ & Htick).
  - vm_compute; reflexivity.
  - split.
    + apply Hexit. declared.
    + apply Htick. intros body. not_declared.
Defined.

(** * The example's [main] *)

Lemma to_basicFSM_Ok fsm fsm' :
  to_basicFSM fsm = Ok fsm' ↔ fsm' = fsm ∧ state fsm ∈ basicFSM.
Proof.
  unfold to_basicFSM. case_decide as Hin; split.
  - by intros [= <-].
  - by intros [-> _].
  - done.
  - by intros [_ ?].
Qed.

Lemma foldr_checks {A} (check : A → result unit) (l : list A) :
  foldr (λ a rest, _ ← check a; rest) (Ok ()) l = Ok () ↔
  ∀ a, a ∈ l → check a = Ok ().
Proof.
  induction l as [|a l IH]; simpl.
  - split; [|done]. by intros _ a ?%elem_of_nil.
  - destruct (check a) as [[]|e] eqn:Ha; simpl.
    + rewrite IH. split.
      * by intros Hl a' [->|?]%elem_of_cons; auto.
      * intros Hl a' ?. apply Hl. by right.
    + split; [done|]. intros Hl.
      assert (a ∈ a :: l) as Hin%Hl by by left. congruence.
Qed.

Lemma instantiate_return_Ok r S E :
  instantiate_return r S E = Ok () ↔
  ∃ next out, dispatch r (FSM_in S) E = Ok (next, out) ∧ state next ∈ basicFSM.
Proof.
  unfold instantiate_return.
  destruct (dispatch r (FSM_in S) E) as [[next out]|e]; simpl.
  - unfold to_basicFSM. case_decide as Hin; simpl; split.
    + intros _. by exists next, out.
    + done.
    + done.
    + by intros (next' & out' & [= <- _] & ?).
  - split; [done|]. by intros (next & out & [=] & _).
Qed.

(** What [std::visit] needs of the translation unit. *)
Lemma instantiate_visit_Ok r :
  instantiate_visit r = Ok () ↔
  ∀ S E, S ∈ basicFSM → E ∈ input_events →
    derived_FSM_State r S = true ∧
    ∃ next out,
      dispatch r (FSM_in S) E = Ok (next, out) ∧ state next ∈ basicFSM.
Proof.
  unfold instantiate_visit. rewrite foldr_checks. split.
  - intros Hall S E HS HE. specialize (Hall S HS).
    unfold instantiate_visitor in Hall.
    apply bind_Ok in Hall as ([] & HS'%require_Ok & Hall).
    split; [done|]. rewrite foldr_checks in Hall.
    by apply instantiate_return_Ok, Hall.
  - intros Hall S HS. unfold instantiate_visitor.
    apply bind_Ok. exists (). split.
    + apply require_Ok. apply (Hall S "e_ready" HS). by left.
    + apply foldr_checks. intros E HE.
      by apply instantiate_return_Ok, Hall.
Qed.

Lemma visitor_cases r fsm i :
  (∃ E, E ∈ input_events ∧ (0 ≤ i ≤ 5)%Z ∧
        visitor r fsm i =
          (next ← dispatch r fsm E; instantiate (to_basicFSM next))) ∨
  ((i < 0 ∨ 5 < i)%Z ∧
   visitor r fsm i =
     (_ ← perform (cout ("Invalid event" +:+ endl));
      instantiate (to_basicFSM fsm))).
Proof.
  destruct i as [|p|p]; [| |right; split; [lia|done]].
  - left. exists "e_ready". split; [declared|split; [lia|done]].
  - do 3 (try destruct p as [p|p|]);
      first
        [ right; split; [lia|reflexivity]
        | left; exists "e_startTx";
          split; [declared|split; [lia|reflexivity]]
        | left; exists "e_startRx";
          split; [declared|split; [lia|reflexivity]]
        | left; exists "e_done";
          split; [declared|split; [lia|reflexivity]]
        | left; exists "ce_error";
          split; [declared|split; [lia|reflexivity]]
        | left; exists "ce_reset";
          split; [declared|split; [lia|reflexivity]] ].
Qed.

(** X12. Whether [processInputEvent] compiles does not depend on the state
    the variant holds or on the integer read at run time: the call is
    well-formed exactly when each of the five alternatives is a state and
    each of the six events, dispatched from each alternative, is
    well-formed and returns one of the alternatives. *)
Theorem processInputEvent_instantiation_is_static r fsm inputEvent :
  state fsm ∈ basicFSM →
  instantiates (processInputEvent r fsm inputEvent) ↔
  ∀ S E, S ∈ basicFSM → E ∈ input_events →
    derived_FSM_State r S = true ∧
    ∃ next out,
      dispatch r (FSM_in S) E = Ok (next, out) ∧ state next ∈ basicFSM.
Proof.
  intros Hfsm. rewrite <- instantiate_visit_Ok. unfold processInputEvent.
  destruct (instantiate_visit r) as [[]|e] eqn:Hvisit; simpl.
  - split; [done|intros _].
    rewrite instantiate_visit_Ok in Hvisit.
    assert (to_basicFSM fsm = Ok fsm) as Hsame by by apply to_basicFSM_Ok.
    destruct (visitor_cases r fsm inputEvent)
      as [(E & HE & _ & ->)|[_ ->]].
    + destruct fsm as [S]. simpl in Hfsm.
      destruct (Hvisit S E Hfsm HE) as (_ & next & out & -> & Hnext). simpl.
      assert (to_basicFSM next = Ok next) as -> by by apply to_basicFSM_Ok.
      by eexists.
    + simpl. rewrite Hsame. by eexists.
  - split; [by intros [? ?]|done].
Qed.

Lemma processInputEvent_instantiation_is_static_witness :
  instantiates (processInputEvent basic_registry (FSM_in "s_rx") 3) ↔
  ∀ S E, S ∈ basicFSM → E ∈ input_events →
    derived_FSM_State basic_registry S = true ∧
    ∃ next out,
      dispatch basic_registry (FSM_in S) E = Ok (next, out) ∧
      state next ∈ basicFSM.
Proof.
  apply (processInputEvent_instantiation_is_static basic_registry
           (FSM_in "s_rx") 3).
  apply (bool_decide_unpack _). vm_compute; exact I.
Defined.

(** X13. An integer outside 0..5 is answered by the default label: when the
    call compiles, it prints [Invalid event], calls no hook, dispatches
    nothing and returns the FSM as it is. *)
Theorem processInputEvent_invalid_input r fsm inputEvent :
  (inputEvent < 0 ∨ 5 < inputEvent)%Z →
  instantiates (processInputEvent r fsm inputEvent) →
  processInputEvent r fsm inputEvent
    = Ok (fsm, [cout ("Invalid event" +:+ endl)]).
Proof.
  intros Hout [[next out] Hcall]. rewrite Hcall.
  unfold processInputEvent in Hcall.
  destruct (instantiate_visit r) as [[]|e]; simpl in Hcall; [|done].
  destruct (visitor_cases r fsm inputEvent)
    as [(E & _ & Hin & _)|[_ Hdefault]]; [lia|].
  rewrite Hdefault in Hcall. simpl in Hcall.
  destruct (to_basicFSM fsm) as [fsm'|e] eqn:Hto; simpl in Hcall; [|done].
  apply to_basicFSM_Ok in Hto as [-> _]. by injection Hcall as <- <-.
Qed.

Lemma processInputEvent_invalid_input_witness :
  processInputEvent basic_registry (FSM_in "s_tx") 7
    = Ok (FSM_in "s_tx", [cout ("Invalid event" +:+ endl)]).
Proof.
  apply (processInputEvent_invalid_input basic_registry (FSM_in "s_tx") 7).
  - right. reflexivity.
  - eexists. vm_compute; reflexivity.
Defined.

Lemma processInputEvent_returns_alternative r fsm inputEvent next out :
  processInputEvent r fsm inputEvent = Ok (next, out) →
  state next ∈ basicFSM.
Proof.
  unfold processInputEvent.
  intros ([] & out1 & out2 & _ & Hvisitor & _)%traced_bind_Ok.
  destruct (visitor_cases r fsm inputEvent) as [(E & _ & _ & Hv)|[_ Hv]];
    rewrite Hv in Hvisitor;
    apply traced_bind_Ok in Hvisitor as (x & o1 & o2 & _ & Hto & _);
    unfold instantiate in Hto.
  - destruct (to_basicFSM x) as [fsm'|] eqn:Hx; [|done].
    injection Hto as -> _. by apply to_basicFSM_Ok in Hx as [-> ?].
  - destruct (to_basicFSM fsm) as [fsm'|] eqn:Hx; [|done].
    injection Hto as -> _. by apply to_basicFSM_Ok in Hx as [-> ?].
Qed.

Lemma basic_fsm_visit : instantiate_visit basic_registry = Ok ().
Proof. vm_compute; reflexivity. Qed.

Lemma processInputEvent_basic_fsm fsm inputEvent :
  state fsm ∈ basicFSM →
  ∃ next out,
    processInputEvent basic_registry fsm inputEvent = Ok (next, out) ∧
    state next ∈ basicFSM.
Proof.
  intros Hfsm. pose proof basic_fsm_visit as Hvisit.
  assert (∃ v, processInputEvent basic_registry fsm inputEvent = Ok v)
    as [[next out] Hcall].
  { unfold processInputEvent. rewrite Hvisit. simpl.
    rewrite instantiate_visit_Ok in Hvisit.
    assert (to_basicFSM fsm = Ok fsm) as Hsame by by apply to_basicFSM_Ok.
    destruct (visitor_cases basic_registry fsm inputEvent)
      as [(E & HE & _ & ->)|[_ ->]].
    - destruct fsm as [S]. simpl in Hfsm.
      destruct (Hvisit S E Hfsm HE) as (_ & next & out & -> & Hnext). simpl.
      assert (to_basicFSM next = Ok next) as -> by by apply to_basicFSM_Ok.
      by eexists.
    - simpl. rewrite Hsame. by eexists. }
  exists next, out. split; [done|].
  by eapply processInputEvent_returns_alternative.
Qed.

Lemma main_loop_basic_fsm fsm inputs :
  state fsm ∈ basicFSM →
  ∃ last out,
    main_loop basic_registry fsm inputs = Ok (last, out) ∧
    state last ∈ basicFSM.
Proof.
  revert fsm. induction inputs as [|i inputs IH]; intros fsm Hfsm; simpl.
  - by exists fsm, [].
  - destruct (processInputEvent_basic_fsm fsm i Hfsm)
      as (next & out & -> & Hnext). simpl.
    destruct (IH next Hnext) as (last & out' & -> & Hlast). simpl.
    by eexists _, _.
Qed.

Lemma main_loop_snoc r fsm inputs i last out next out' :
  main_loop r fsm inputs = Ok (last, out) →
  processInputEvent r last i = Ok (next, out') →
  main_loop r fsm (inputs ++ [i]) = Ok (next, out ++ cout prompt :: out').
Proof.
  revert fsm out. induction inputs as [|i0 inputs IH]; intros fsm out; simpl.
  - intros [= <- <-] Hcall. rewrite Hcall. simpl. by rewrite app_nil_r.
  - destruct (processInputEvent r fsm i0) as [[mid out0]|e]; simpl; [|done].
    destruct (main_loop r mid inputs) as [[last' out1]|e] eqn:Hloop;
      simpl; [|done].
    intros [= ? ?] Hcall. subst.
    by rewrite (IH _ _ Hloop Hcall), app_assoc.
Qed.

Lemma main_after_loop inputs last out :
  main_loop basic_registry (FSM_in "s_init") inputs = Ok (last, out) →
  main basic_registry inputs = Ok (last, exec_On_Enter "s_init" :: out).
Proof.
  intros Hloop.
  assert (FSM_ctor basic_registry "s_init"
            = Ok (FSM_in "s_init", [exec_On_Enter "s_init"])) as Hctor
    by (vm_compute; reflexivity).
  assert (to_basicFSM (FSM_in "s_init") = Ok (FSM_in "s_init")) as Hto
    by (vm_compute; reflexivity).
  unfold main. rewrite Hctor.
  change (match instantiate (to_basicFSM (FSM_in "s_init"))
                  ≫= (λ fsm, main_loop basic_registry fsm inputs) with
          | Ok (b, out') => Ok (b, [exec_On_Enter "s_init"] ++ out')
          | Ill_formed e => Ill_formed e
          end = Ok (last, exec_On_Enter "s_init" :: out)).
  by rewrite Hto, bind_instantiate_Ok, Hloop.
Qed.

(** X14. The example program is well-formed and never leaves its variant:
    for every sequence of integers read, [main] has constructed
    [FSM<s_init>] and holds, after the last of them, an FSM in one of the
    five states of [basicFSM]. *)
Theorem main_stays_in_basicFSM inputs :
  ∃ fsm out,
    main basic_registry inputs = Ok (fsm, exec_On_Enter "s_init" :: out) ∧
    state fsm ∈ basicFSM.
Proof.
  assert (state (FSM_in "s_init") ∈ basicFSM) as Hinit by declared.
  destruct (main_loop_basic_fsm (FSM_in "s_init") inputs Hinit)
    as (last & out & Hloop & Hlast).
  exists last, out. split; [|done]. by apply main_after_loop.
Qed.

(** X15. In the example, the inputs 5 and 4 work from everywhere: whatever
    was read before, reading 5 leaves the machine in [s_init] and reading 4
    leaves it in [s_error], and that step calls the enter hook of the new
    state and no exit hook. *)
Theorem main_reset_and_error inputs :
  (∃ out, main basic_registry (inputs ++ [5%Z]) =
            Ok (FSM_in "s_init", out ++ [cout prompt; exec_On_Enter "s_init"])) ∧
  (∃ out, main basic_registry (inputs ++ [4%Z]) =
            Ok (FSM_in "s_error", out ++ [cout prompt; exec_On_Enter "s_error"])).
Proof.
  assert (state (FSM_in "s_init") ∈ basicFSM) as Hinit by declared.
  destruct (main_loop_basic_fsm (FSM_in "s_init") inputs Hinit)
    as ([S] & out & Hloop & Hlast). simpl in Hlast.
  assert (processInputEvent basic_registry (FSM_in S) 5
            = Ok (FSM_in "s_init", [exec_On_Enter "s_init"]) ∧
          processInputEvent basic_registry (FSM_in S) 4
            = Ok (FSM_in "s_error", [exec_On_Enter "s_error"])) as [H5 H4].
  { repeat (apply elem_of_cons in Hlast as [->|Hlast];
              [split; vm_compute; reflexivity|]).
    by apply elem_of_nil in Hlast. }
  split.
  - exists (exec_On_Enter "s_init" :: out).
    by apply main_after_loop, (main_loop_snoc _ _ _ _ _ _ _ _ Hloop H5).
  - exists (exec_On_Enter "s_init" :: out).
    by apply main_after_loop, (main_loop_snoc _ _ _ _ _ _ _ _ Hloop H4).
Qed.

(** * Adding a rule *)

Lemma dispatch_ext r r' this E :
  structs r = structs r' →
  State_Name r = State_Name r' →
  FSM_Transition r (state this) E = FSM_Transition r' (state this) E →
  dispatch r this E = dispatch r' this E.
Proof.
  intros Hs Hn Ht.
  unfold dispatch, can_handle_event, next_state, print_unhandled_event,
    FSM_ctor, FSM_State_Name, require, derived_FSM_Event, derived_FSM_State,
    derived_FSM_CriticalEvent, derived_from.
  by rewrite Hs, Hn, Ht.
Qed.

(** X16. An exact rule is local to its pair.  Appending
    [NEW_TRANSITION(S, E, T)] to a translation unit that compiles leaves
    every dispatch of another pair (state, event) as it was, with the same
    result and the same calls, rules of the same event from other states
    and generic rules included. *)
Theorem exact_rule_is_local tu r S E T r' S' E' :
  compile tu = Ok r →
  compile (tu ++ [NEW_TRANSITION S E T]) = Ok r' →
  (S', E') ≠ (S, E) →
  dispatch r' (FSM_in S') E' = dispatch r (FSM_in S') E'.
Proof.
  unfold compile. rewrite translate_app. intros -> H Hother. simpl in H.
  apply bind_Ok in H as (r1 & H & [= <-]). simpl in H. elaborated H.
  symmetry. apply dispatch_ext; [done..|]. unfold FSM_Transition. simpl.
  unfold derived_FSM_State, derived_FSM_Event, derived_from. simpl.
  by rewrite lookup_insert_ne by congruence.
Qed.

Lemma exact_rule_is_local_witness :
  dispatch (registry_of (basic_fsm ++ [NEW_TRANSITION "s_error" "e_done" "s_idle"]))
      (FSM_in "s_error") "ce_error"
    = dispatch basic_registry (FSM_in "s_error") "ce_error".
Proof.
  apply (exact_rule_is_local basic_fsm basic_registry
           "s_error" "e_done" "s_idle").
  - vm_compute; reflexivity.
  - vm_compute; reflexivity.
  - discriminate.
Defined.
